(** * gocache: an in-process key/value cache with time-based expiration

    A shallow embedding of [item.go], [errors.go] and [cache.go], followed by
    the properties of the public operations.

    Conventions of the embedding.
    - [int64] values ([Item.Expiration], [time.Duration], the result of
      [UnixNano]) are integers of [Z]; every place where the Go code computes
      a new [int64] writes the two's-complement wrap-around out ([Int64.wrap]).
    - A [time.Time] is the number of nanoseconds since the Unix epoch, as an
      unbounded integer; [UnixNano] reduces it to an [int64].
    - The wall clock is an oracle [clock : nat -> Time]: the n-th evaluation
      of [time.Now()] during a run yields [clock n].
    - The methods of [*Cache] are computations of a state monad over a
      [World]: the cache object, the number of clock readings made so far and
      the state owned by the caller's closures.
    - [sync.RWMutex] carries no data; in a run of one goroutine [Lock],
      [RLock] and their unlocks are no-ops and are left out. The goroutine
      started by [New] and the unbuffered channel [stopCleanup] are modelled
      by a transition system, [step], over the program points of the
      goroutine and of a caller of [Stop].
    - [Set] is a reserved word; the method is [Set_] here. *)

From Stdlib Require Import ZArith Lia.
From stdpp Require Import gmap strings fin_maps relations.

Local Open Scope Z_scope.

(** ** 64-bit signed integers *)

Module Int64.

Definition min_int : Z := - 2 ^ 63.
Definition max_int : Z := 2 ^ 63 - 1.

(** Two's-complement reduction of a mathematical integer to an [int64]. *)
Definition wrap (z : Z) : Z := (z + 2 ^ 63) mod 2 ^ 64 - 2 ^ 63.

Definition in_range (z : Z) : Prop := min_int <= z <= max_int.

End Int64.

(** ** package time *)

(** An instant: nanoseconds since January 1, 1970 UTC. *)
Definition Time : Type := Z.

(** [time.Duration] is an [int64] count of nanoseconds. *)
Definition Duration : Type := Z.

(** [t.Add(d)]. For an instant and a duration within the reach of the
    package (hundreds of years around the epoch) the sum of the seconds does
    not saturate, so the result is the exact sum. *)
Definition Add (t : Time) (d : Duration) : Time := t + d.

(** [t.UnixNano()]: seconds times 1e9 plus nanoseconds, computed in [int64]. *)
Definition UnixNano (t : Time) : Z := Int64.wrap t.

(** ** errors.go *)

(** The three sentinel errors of the package, and any other error value a
    caller's function may produce. A Go [error] that may be [nil] is an
    [option error]. *)
Inductive error : Type :=
| ErrKeyNotFound
| ErrKeyExpired
| ErrNilValue
| ErrOther (msg : string).

Section Gocache.

(** [V]: the non-nil dynamic values an [interface{}] may hold.
    [Env]: the state captured by the closures that callers pass in. *)
Context {V Env : Type}.

(** The wall clock. *)
Variable clock : nat -> Time.

(** [interface{}]: [None] is the nil interface. *)
Definition iface : Type := option V.

(** ** item.go *)

Record Item : Type := mkItem {
  Value : iface;
  Expiration : Z  (* Unix timestamp in nanoseconds *)
}.

(** ** cache.go: the state *)

Record Cache : Type := mkCache {
  items : gmap string Item;
  defaultExpiration : Duration;
  cleanupInterval : Duration
}.

Record Options : Type := mkOptions {
  DefaultExpiration : Duration;
  CleanupInterval : Duration
}.

Record World : Type := mkWorld {
  cache : Cache;   (* the object behind the receiver [c *Cache] *)
  ticks : nat;     (* how many times [time.Now()] has been evaluated *)
  env : Env        (* variables captured by the caller's closures *)
}.

Definition M (A : Type) : Type := World -> A * World.

Definition ret {A} (a : A) : M A := fun w => (a, w).

Definition bind {A B} (m : M A) (k : A -> M B) : M B :=
  fun w => let (a, w') := m w in k a w'.

Notation "'do' x <- m ; k" := (bind m (fun x => k))
  (at level 10, x pattern, m at level 100, k at level 200, only parsing).
Notation "'do_' m ; k" := (bind m (fun _ => k))
  (at level 10, m at level 100, k at level 200, only parsing).

(** [time.Now()] *)
Definition time_Now : M Time :=
  fun w => (clock (ticks w), mkWorld (cache w) (S (ticks w)) (env w)).

(** Reading and writing the field [c.items]. *)
Definition get_items : M (gmap string Item) :=
  fun w => (items (cache w), w).

Definition put_items (m : gmap string Item) : M unit :=
  fun w =>
    (tt, mkWorld (mkCache m (defaultExpiration (cache w)) (cleanupInterval (cache w)))
                 (ticks w) (env w)).

Definition get_defaultExpiration : M Duration :=
  fun w => (defaultExpiration (cache w), w).

(** ** item.go: Expired *)

Definition Expired (item : Item) : M bool :=
  if Expiration item =? 0 then ret false
  else
    do now <- time_Now;
    ret (UnixNano now >? Expiration item).

(** The same test at a given reading of the clock. *)
Definition expired_at (now : Z) (item : Item) : bool :=
  if Expiration item =? 0 then false else now >? Expiration item.

(** ** cache.go: the operations *)

(** [New]: the fields of the fresh object. The goroutine it may start is
    part of [Sys_New] below. *)
Definition New (options : Options) : Cache :=
  mkCache ∅ (DefaultExpiration options) (CleanupInterval options).

Definition SetWithExpiration (key : string) (value : iface) (duration : Duration)
  : M (option error) :=
  match value with
  | None => ret (Some ErrNilValue)
  | Some _ =>
    do expiration <-
      (if duration >? 0
       then do now <- time_Now; ret (UnixNano (Add now duration))
       else ret 0);
    do m <- get_items;
    do_ put_items (<[key := mkItem value expiration]> m);
    ret None
  end.

Definition Set_ (key : string) (value : iface) : M (option error) :=
  do d <- get_defaultExpiration;
  SetWithExpiration key value d.

Definition Get (key : string) : M (iface * option error) :=
  do m <- get_items;
  match m !! key with
  | None => ret (None, Some ErrKeyNotFound)
  | Some item =>
    do e <- Expired item;
    if e then
      (* check again after acquiring the write lock *)
      do m' <- get_items;
      do_ match m' !! key with
          | Some item' =>
            do e' <- Expired item';
            if e' then put_items (delete key m') else ret tt
          | None => ret tt
          end;
      ret (None, Some ErrKeyExpired)
    else ret (Value item, None)
  end.

Definition GetOrSet (key : string) (fn : M (iface * option error))
  : M (iface * option error) :=
  do r <- Get key;
  match r with
  | (value, None) => ret (value, None)
  | (_, Some _) =>
    do r' <- fn;
    match r' with
    | (_, Some err) => ret (None, Some err)
    | (value, None) =>
      do err <- Set_ key value;
      match err with
      | Some err => ret (None, Some err)
      | None => ret (value, None)
      end
    end
  end.

Definition Delete (key : string) : M bool :=
  do m <- get_items;
  match m !! key with
  | Some _ => do_ put_items (delete key m); ret true
  | None => ret false
  end.

(** One iteration of the loop of [DeleteExpired]. *)
Definition DeleteExpired_body (now : Z) (k : string) (v : Item)
    (m : gmap string Item) : gmap string Item :=
  if (Expiration v >? 0) && (now >? Expiration v) then delete k m else m.

(** The loop ranges over the map while deleting from it; Go allows that, and
    an entry is only ever removed at its own iteration, so the loop is a fold
    over the entries present at its start, acting on the live map. *)
Definition DeleteExpired : M unit :=
  do t <- time_Now;
  let now := UnixNano t in
  do m <- get_items;
  put_items (map_fold (DeleteExpired_body now) m m).

(** One iteration of the loop of [Items]. *)
Definition Items_body (now : Z) (k : string) (v : Item)
    (acc : gmap string iface) : gmap string iface :=
  if (Expiration v =? 0) || (now <? Expiration v) then <[k := Value v]> acc else acc.

Definition Items : M (gmap string iface) :=
  do m <- get_items;
  do t <- time_Now;
  let now := UnixNano t in
  ret (map_fold (Items_body now) ∅ m).

(** [len] returns an [int]. *)
Definition ItemCount : M Z :=
  do m <- get_items;
  ret (Z.of_nat (size m)).

Definition Flush : M unit := put_items ∅.

(** ** cache.go: the cleanup goroutine and [Stop]

    [stopCleanup] is made by [make(chan bool)]: it has no buffer, so a send
    completes only together with a receive. The only receive in the program
    is the second case of the [select] in [startCleanupRoutine]. *)

(** Where the goroutine of [startCleanupRoutine] is. *)
Inductive sweeper_pc : Type :=
| SweepAbsent      (* [New] did not start it *)
| SweepSelect      (* waiting in [select] *)
| SweepDeleting    (* in [c.DeleteExpired()], after a tick *)
| SweepReturned.   (* it received from [stopCleanup] and returned *)

(** Where the goroutine that calls [Stop] is. *)
Inductive caller_pc : Type :=
| CallerIdle       (* not in a call *)
| StopEntry        (* at [if c.cleanupInterval > 0] *)
| StopSend         (* at [c.stopCleanup <- true] *)
| StopReturned.    (* the call has returned *)

Record Sys : Type := mkSys {
  world : World;
  sweeper : sweeper_pc;
  caller : caller_pc
}.

Definition Sys_New (options : Options) (e : Env) : Sys :=
  mkSys (mkWorld (New options) 0 e)
        (if CleanupInterval options >? 0 then SweepSelect else SweepAbsent)
        CallerIdle.

(** The caller enters [c.Stop()]. *)
Definition call_Stop (s : Sys) : Sys := mkSys (world s) (sweeper s) StopEntry.

(** [startCleanupRoutine]: the moves of its goroutine on its own, a tick of
    the ticker followed by [c.DeleteExpired()]. The receive from
    [stopCleanup] needs a sender; it is part of [rendezvous]. *)
Definition startCleanupRoutine (s : Sys) : list Sys :=
  match sweeper s with
  | SweepSelect => [mkSys (world s) SweepDeleting (caller s)]       (* [<-ticker.C] *)
  | SweepDeleting =>
    [mkSys (snd (DeleteExpired (world s))) SweepSelect (caller s)]
  | SweepAbsent | SweepReturned => []
  end.

(** [Stop]: the moves of the caller on its own, the test of
    [c.cleanupInterval]. The send needs a receiver; it is part of
    [rendezvous]. *)
Definition Stop (s : Sys) : list Sys :=
  match caller s with
  | StopEntry =>
    if cleanupInterval (cache (world s)) >? 0
    then [mkSys (world s) (sweeper s) StopSend]
    else [mkSys (world s) (sweeper s) StopReturned]
  | CallerIdle | StopSend | StopReturned => []
  end.

(** The send of [Stop] meets the receive of the [select]. *)
Definition rendezvous (s : Sys) : list Sys :=
  match caller s, sweeper s with
  | StopSend, SweepSelect => [mkSys (world s) SweepReturned StopReturned]
  | _, _ => []
  end.

Definition successors (s : Sys) : list Sys :=
  startCleanupRoutine s ++ Stop s ++ rendezvous s.

Definition step (s s' : Sys) : Prop := s' ∈ successors s.

(** ** Statements used by the properties below *)

(** The reading of the clock that the next [time.Now().UnixNano()] gives. *)
Definition now_of (w : World) : Z := UnixNano (clock (ticks w)).

(** The world with [c.items] replaced and [n] more readings of the clock. *)
Definition with_items (m : gmap string Item) (n : nat) (w : World) : World :=
  mkWorld (mkCache m (defaultExpiration (cache w)) (cleanupInterval (cache w)))
          (n + ticks w) (env w).

(** Invariant of the system while the first [Stop] runs on a store with a
    positive interval: the goroutine exists, and once the call has returned
    the goroutine has too. *)
Definition first_Stop_inv (s : Sys) : Prop :=
  0 < cleanupInterval (cache (world s)) /\
  sweeper s <> SweepAbsent /\
  caller s <> CallerIdle /\
  (caller s = StopReturned -> sweeper s = SweepReturned).

(** Invariant of the system while a later [Stop] runs after the goroutine
    has returned: the caller is at the test or at the send, never past it. *)
Definition later_Stop_inv (s : Sys) : Prop :=
  0 < cleanupInterval (cache (world s)) /\
  sweeper s = SweepReturned /\
  (caller s = StopEntry \/ caller s = StopSend).

(** The store holds no nil value. *)
Definition no_nil_values (w : World) : Prop :=
  forall k item, items (cache w) !! k = Some item -> Value item <> None.

(** No stored expiration is negative. *)
Definition nonneg_expirations (w : World) : Prop :=
  forall k item, items (cache w) !! k = Some item -> 0 <= Expiration item.

(** Invariant of the system from the first call of [Stop] on, on a store
    with a positive interval: either the call has returned and the goroutine
    with it, or the call is at its test or at its send and the goroutine is
    in its loop. *)
Definition Stop_pending_inv (s : Sys) : Prop :=
  0 < cleanupInterval (cache (world s)) /\
  ((caller s = StopReturned /\ sweeper s = SweepReturned) \/
   ((caller s = StopEntry \/ caller s = StopSend) /\
    (sweeper s = SweepSelect \/ sweeper s = SweepDeleting))).

(** * Properties *)

(** ** Arithmetic of [int64] *)

Lemma Int64_wrap_range z : Int64.in_range (Int64.wrap z).
Proof.
  unfold Int64.in_range, Int64.wrap, Int64.min_int, Int64.max_int.
  pose proof (Z.mod_pos_bound (z + 2 ^ 63) (2 ^ 64) ltac:(lia)). lia.
Qed.

Lemma Int64_wrap_id z : Int64.in_range z -> Int64.wrap z = z.
Proof.
  unfold Int64.in_range, Int64.wrap, Int64.min_int, Int64.max_int. intros Hz.
  rewrite Z.mod_small; lia.
Qed.

(** ** [Expired] *)

(** [Expired] reads the clock at most once and changes nothing else. *)
Lemma Expired_spec item w :
  Expired item w =
    (expired_at (now_of w) item,
     if Expiration item =? 0 then w
     else mkWorld (cache w) (S (ticks w)) (env w)).
Proof.
  unfold Expired, expired_at, now_of.
  destruct (Expiration item =? 0); reflexivity.
Qed.

Lemma expired_at_true now item :
  expired_at now item = true <-> Expiration item <> 0 /\ Expiration item < now.
Proof.
  unfold expired_at.
  destruct (Z.eqb_spec (Expiration item) 0) as [E|E]; [split; [done | lia] |].
  rewrite Z.gtb_gt. lia.
Qed.

Lemma expired_at_false now item :
  expired_at now item = false <-> Expiration item = 0 \/ now <= Expiration item.
Proof.
  rewrite <- not_true_iff_false, expired_at_true. lia.
Qed.

(** An item whose expiration is the zero sentinel is never expired, whatever
    the clock says. *)
Lemma Expired_sentinel item w :
  Expiration item = 0 -> Expired item w = (false, w).
Proof. intros E. unfold Expired. rewrite E. reflexivity. Qed.

(** ** [Get] *)

(** C1. [Get key] has exactly three outcomes, by the entry at [key] when the
    call starts. Absent: [ErrKeyNotFound], and the world is the same.
    Present with a non-zero expiration strictly earlier than the current
    time: [ErrKeyExpired], and the entry is deleted from [c.items]. Present
    otherwise: the stored value and no error, and the cache is the same.
    [Get] reads the clock once for its first test and once more for the test
    under the write lock; the clock is taken not to step back between these
    two readings. *)
Theorem C1_Get_three_outcomes (key : string) (w : World) :
  now_of w <= UnixNano (clock (S (ticks w))) ->
  match items (cache w) !! key with
  | None => Get key w = ((None, Some ErrKeyNotFound), w)
  | Some item =>
    if decide (Expiration item <> 0 /\ Expiration item < now_of w)
    then fst (Get key w) = (None, Some ErrKeyExpired) /\
         items (cache (snd (Get key w))) = delete key (items (cache w)) /\
         defaultExpiration (cache (snd (Get key w))) = defaultExpiration (cache w) /\
         cleanupInterval (cache (snd (Get key w))) = cleanupInterval (cache w) /\
         env (snd (Get key w)) = env w
    else fst (Get key w) = (Value item, None) /\
         cache (snd (Get key w)) = cache w /\
         env (snd (Get key w)) = env w
  end.
Proof.
  intros Hmono. unfold Get, bind, get_items.
  destruct (items (cache w) !! key) as [item|] eqn:Hk; [|reflexivity].
  rewrite Expired_spec.
  destruct (decide _) as [Hexp|Hlive].
  - apply (expired_at_true (now_of w)) in Hexp as Hnow. rewrite Hnow.
    destruct (Z.eqb_spec (Expiration item) 0) as [E|_]; [lia|].
    cbn [cache items]. rewrite Hk, Expired_spec.
    destruct (Z.eqb_spec (Expiration item) 0) as [E|_]; [lia|].
    assert (expired_at (UnixNano (clock (S (ticks w)))) item = true) as Hagain.
    { apply expired_at_true. lia. }
    unfold now_of. cbn [ticks]. rewrite Hagain. by cbn.
  - assert (expired_at (now_of w) item = false) as Hnow.
    { apply expired_at_false. lia. }
    rewrite Hnow. destruct (Expiration item =? 0); by cbn.
Qed.

(** ** [SetWithExpiration] and [Set] *)

Lemma SetWithExpiration_nil key d w :
  SetWithExpiration key None d w = (Some ErrNilValue, w).
Proof. reflexivity. Qed.

Lemma SetWithExpiration_pos key v d w :
  0 < d ->
  SetWithExpiration key (Some v) d w =
    (None,
     with_items (<[key := mkItem (Some v) (UnixNano (Add (clock (ticks w)) d))]>
                   (items (cache w))) 1 w).
Proof.
  intros Hd. unfold SetWithExpiration, bind.
  destruct (Z.gtb_spec d 0) as [_|]; [|lia]. reflexivity.
Qed.

Lemma SetWithExpiration_nonpos key v d w :
  d <= 0 ->
  SetWithExpiration key (Some v) d w =
    (None, with_items (<[key := mkItem (Some v) 0]> (items (cache w))) 0 w).
Proof.
  intros Hd. unfold SetWithExpiration, bind.
  destruct (Z.gtb_spec d 0) as [|_]; [lia|]. reflexivity.
Qed.

(** An entry carrying the zero sentinel is served by [Get] in every world
    that holds it, whatever the clock reads there; the world is left as it
    is. *)
Lemma Get_sentinel key value w :
  items (cache w) !! key = Some (mkItem value 0) ->
  Get key w = ((value, None), w).
Proof.
  intros Hk. unfold Get, bind, get_items. rewrite Hk. reflexivity.
Qed.

(** C6. [Set key nil] fails with [ErrNilValue] and changes nothing: the world
    after the call is the world before it, so every entry of the mapping,
    the one at [key] included, is as it was. *)
Theorem C6_Set_nil_rejected (key : string) (w : World) :
  Set_ key None w = (Some ErrNilValue, w) /\
  items (cache (snd (Set_ key None w))) = items (cache w).
Proof. split; reflexivity. Qed.

(** C4, amended. For a non-nil value: with [duration > 0], and the instant
    [now + duration] representable as an [int64] count of nanoseconds,
    [SetWithExpiration] stores an item whose expiration is [now + duration],
    [now] being the reading of the clock made by the call; with
    [duration = 0] it stores an item with the never-expires sentinel,
    whatever the default expiration of the store, and that item is found
    unexpired at every later reading of the clock. In both cases the call
    returns no error and the new mapping is the old one with the entry at
    [key] set to the new item. *)
Theorem C4_SetWithExpiration_stores (key : string) (v : V) (d : Duration) (w : World) :
  0 <= d ->
  (0 < d -> Int64.in_range (clock (ticks w) + d)) ->
  let expiration := if decide (d = 0) then 0 else clock (ticks w) + d in
  let readings := if decide (d = 0) then 0%nat else 1%nat in
  SetWithExpiration key (Some v) d w =
    (None,
     with_items (<[key := mkItem (Some v) expiration]> (items (cache w))) readings w) /\
  (d = 0 ->
   forall w', Expired (mkItem (Some v) expiration) w' = (false, w') /\
     (items (cache w') !! key = Some (mkItem (Some v) expiration) ->
      Get key w' = ((Some v, None), w'))).
Proof.
  intros Hd Hfit. cbn zeta. destruct (decide (d = 0)) as [->|Hne].
  - split; [by apply SetWithExpiration_nonpos|].
    intros _ w'. split; [by apply Expired_sentinel | apply Get_sentinel].
  - split; [|done]. rewrite SetWithExpiration_pos by lia.
    unfold UnixNano, Add. rewrite Int64_wrap_id by (apply Hfit; lia). reflexivity.
Qed.

(** C9. With a strictly negative duration [SetWithExpiration] does what it
    does with duration zero: it stores the item with expiration 0, and that
    item never expires. *)
Theorem C9_negative_duration_never_expires (key : string) (v : V) (d : Duration) (w : World) :
  d < 0 ->
  SetWithExpiration key (Some v) d w = SetWithExpiration key (Some v) 0 w /\
  SetWithExpiration key (Some v) d w =
    (None, with_items (<[key := mkItem (Some v) 0]> (items (cache w))) 0 w) /\
  forall w', Expired (mkItem (Some v) 0) w' = (false, w') /\
    (items (cache w') !! key = Some (mkItem (Some v) 0) ->
     Get key w' = ((Some v, None), w')).
Proof.
  intros Hd. rewrite !SetWithExpiration_nonpos by lia.
  split; [reflexivity|]. split; [reflexivity|].
  intros w'. split; [by apply Expired_sentinel | apply Get_sentinel].
Qed.

(** ** [ItemCount] *)

(** C8. [ItemCount] returns the number of entries of the mapping and leaves
    the world as it is; it does not look at the clock, and at any instant
    its result is the number of expired entries plus the number of entries
    that are not expired. *)
Theorem C8_ItemCount_counts_all (w : World) :
  ItemCount w = (Z.of_nat (size (items (cache w))), w) /\
  size (items (cache w)) = length (map_to_list (items (cache w))) /\
  forall now : Z,
    fst (ItemCount w) =
      Z.of_nat (size (filter (fun kv => expired_at now kv.2 = true) (items (cache w)))) +
      Z.of_nat (size (filter (fun kv => ~ expired_at now kv.2 = true) (items (cache w)))).
Proof.
  split; [reflexivity|]. split; [symmetry; apply length_map_to_list|].
  intros now. cbn.
  set (P := fun kv : string * Item => expired_at now kv.2 = true).
  rewrite <- (map_filter_union_complement P (items (cache w))) at 1.
  rewrite map_size_disj_union by apply map_disjoint_filter_complement.
  rewrite Nat2Z.inj_add. reflexivity.
Qed.

(** ** [DeleteExpired] *)

(** What the loop of [DeleteExpired] leaves at a key [k], for a loop over the
    entries of [m] that acts on the map [acc]. *)
Lemma DeleteExpired_loop_lookup now (m acc : gmap string Item) (k : string) :
  map_fold (DeleteExpired_body now) acc m !! k =
    match m !! k with
    | Some v =>
      if (Expiration v >? 0) && (now >? Expiration v) then None else acc !! k
    | None => acc !! k
    end.
Proof.
  apply (map_fold_weak_ind (fun r m' =>
    r !! k = match m' !! k with
             | Some v =>
               if (Expiration v >? 0) && (now >? Expiration v) then None else acc !! k
             | None => acc !! k
             end)).
  - by rewrite lookup_empty.
  - intros i x m' r Hi IH. unfold DeleteExpired_body.
    destruct (decide (i = k)) as [->|Hne].
    + rewrite lookup_insert_eq. rewrite Hi in IH.
      destruct (_ && _); [apply lookup_delete_eq | exact IH].
    + rewrite lookup_insert_ne by done.
      destruct (_ && _); [by rewrite lookup_delete_ne | exact IH].
Qed.

(** [DeleteExpired] reads the clock once, removes the entries whose
    expiration is strictly positive and strictly earlier than that reading,
    and keeps every other entry as it is. *)
Lemma DeleteExpired_spec (w : World) :
  exists m',
    DeleteExpired w = (tt, with_items m' 1 w) /\
    forall k, m' !! k =
      match items (cache w) !! k with
      | Some v =>
        if decide (0 < Expiration v /\ Expiration v < now_of w) then None else Some v
      | None => None
      end.
Proof.
  exists (map_fold (DeleteExpired_body (now_of w)) (items (cache w)) (items (cache w))).
  split; [reflexivity|]. intros k.
  rewrite DeleteExpired_loop_lookup.
  destruct (items (cache w) !! k) as [v|] eqn:Hk; [|reflexivity].
  destruct (Z.gtb_spec (Expiration v) 0), (Z.gtb_spec (now_of w) (Expiration v));
    cbn; case_decide; try done; lia.
Qed.

(** C7. An entry whose stored expiration is negative is expired for
    [Expired], its expiration being non-zero and earlier than the reading of
    the clock, and yet [DeleteExpired] keeps it. *)
Theorem C7_DeleteExpired_keeps_negative (key : string) (item : Item) (w : World) :
  items (cache w) !! key = Some item ->
  Expiration item < 0 ->
  Expiration item < now_of w ->
  fst (Expired item w) = true /\
  items (cache (snd (DeleteExpired w))) !! key = Some item.
Proof.
  intros Hk Hneg Hpast. split.
  - rewrite Expired_spec. apply expired_at_true. lia.
  - destruct (DeleteExpired_spec w) as (m' & -> & Hm'). cbn.
    rewrite Hm', Hk. case_decide; [lia | done].
Qed.

(** ** [Items] *)

Lemma Items_loop_lookup now (m : gmap string Item) (k : string) :
  map_fold (Items_body now) ∅ m !! k =
    match m !! k with
    | Some v =>
      if (Expiration v =? 0) || (now <? Expiration v) then Some (Value v) else None
    | None => None
    end.
Proof.
  apply (map_fold_weak_ind (fun r m' =>
    r !! k = match m' !! k with
             | Some v =>
               if (Expiration v =? 0) || (now <? Expiration v)
               then Some (Value v) else None
             | None => None
             end)).
  - by rewrite lookup_empty.
  - intros i x m' r Hi IH. unfold Items_body.
    destruct (decide (i = k)) as [->|Hne].
    + rewrite lookup_insert_eq. rewrite Hi in IH.
      destruct (_ || _); [apply lookup_insert_eq | exact IH].
    + rewrite lookup_insert_ne by done.
      destruct (_ || _); [by rewrite lookup_insert_ne | exact IH].
Qed.

(** [Items] reads the clock once and leaves the cache as it is; its result
    holds the value of every entry whose expiration is 0 or strictly later
    than the reading, and nothing else. *)
Lemma Items_spec (w : World) :
  snd (Items w) = mkWorld (cache w) (S (ticks w)) (env w) /\
  forall k, fst (Items w) !! k =
    match items (cache w) !! k with
    | Some v =>
      if decide (Expiration v = 0 \/ now_of w < Expiration v)
      then Some (Value v) else None
    | None => None
    end.
Proof.
  split; [reflexivity|]. intros k. cbn.
  rewrite Items_loop_lookup. fold (now_of w).
  destruct (items (cache w) !! k) as [v|] eqn:Hk; [|reflexivity].
  destruct (Z.eqb_spec (Expiration v) 0), (Z.ltb_spec (now_of w) (Expiration v));
    cbn; case_decide; try done; lia.
Qed.

(** No key of the result of [Items] belongs to an entry that [Expired]
    reports as expired at the reading of the clock made by the call. *)
Lemma Items_only_unexpired (w : World) (k : string) (x : iface) :
  fst (Items w) !! k = Some x ->
  exists item, items (cache w) !! k = Some item /\ Value item = x /\
    expired_at (now_of w) item = false.
Proof.
  destruct (Items_spec w) as [_ ->].
  destruct (items (cache w) !! k) as [item|]; [|done].
  case_decide; [|done]. intros [= <-]. exists item.
  split; [done|]. split; [done|]. apply expired_at_false. lia.
Qed.

(** C3. An entry whose non-zero expiration equals the reading of the clock is
    not expired: [Expired] reports false and [Get] returns its value. [Items]
    called at that same reading leaves its key out of the result. *)
Theorem C3_Items_omits_unexpired_at_boundary (key : string) (item : Item) (w : World) :
  items (cache w) !! key = Some item ->
  Expiration item <> 0 ->
  Expiration item = now_of w ->
  fst (Expired item w) = false /\
  fst (Get key w) = (Value item, None) /\
  fst (Items w) !! key = None.
Proof.
  intros Hk Hset Hnow.
  assert (expired_at (now_of w) item = false) as Hlive.
  { apply expired_at_false. lia. }
  split; [by rewrite Expired_spec|]. split.
  - unfold Get, bind, get_items. rewrite Hk, Expired_spec, Hlive. reflexivity.
  - destruct (Items_spec w) as [_ ->]. rewrite Hk. case_decide; [lia | done].
Qed.

(** ** [GetOrSet] *)

(** [Get] fails on a key that is absent or expired, whether or not the
    second test under the write lock leads to the deletion. *)
Lemma Get_fails (key : string) (w : World) :
  (items (cache w) !! key = None \/
   exists item, items (cache w) !! key = Some item /\
     Expiration item <> 0 /\ Expiration item < now_of w) ->
  exists e, fst (Get key w) = (None, Some e).
Proof.
  unfold Get, bind, get_items. intros [Hk|(item & Hk & Hset & Hpast)]; rewrite Hk.
  - by eexists.
  - rewrite Expired_spec.
    assert (expired_at (now_of w) item = true) as -> by (apply expired_at_true; lia).
    destruct (Z.eqb_spec (Expiration item) 0) as [|_]; [lia|].
    cbn [cache items]. rewrite Hk.
    destruct (Expired item _) as [[] ?]; by eexists.
Qed.

(** After a failed [Get], with a clock that does not step back between the
    two readings of the call, there is no entry at the key. *)
Lemma Get_failure_leaves_no_entry (key : string) (w : World) (e : error) :
  now_of w <= UnixNano (clock (S (ticks w))) ->
  snd (fst (Get key w)) = Some e ->
  items (cache (snd (Get key w))) !! key = None.
Proof.
  intros Hmono. unfold Get, bind, get_items.
  destruct (items (cache w) !! key) as [item|] eqn:Hk; [|done].
  rewrite Expired_spec.
  destruct (expired_at (now_of w) item) eqn:Hnow;
    [|by destruct (Expiration item =? 0)].
  apply expired_at_true in Hnow.
  destruct (Z.eqb_spec (Expiration item) 0) as [|_]; [lia|].
  cbn [cache items]. rewrite Hk, Expired_spec.
  destruct (Z.eqb_spec (Expiration item) 0) as [|_]; [lia|].
  assert (expired_at (UnixNano (clock (S (ticks w)))) item = true) as Hagain.
  { apply expired_at_true. lia. }
  unfold now_of. cbn [ticks]. rewrite Hagain. intros _. cbn.
  apply lookup_delete_eq.
Qed.

(** What [Set] stores for a non-nil value: the expiration follows from the
    default expiration of the store. *)
Lemma Set_stores (key : string) (v : V) (w : World) :
  let d := defaultExpiration (cache w) in
  Set_ key (Some v) w =
    (None,
     with_items
       (<[key := mkItem (Some v)
                   (if d >? 0 then UnixNano (Add (clock (ticks w)) d) else 0)]>
          (items (cache w)))
       (if d >? 0 then 1 else 0)%nat w).
Proof.
  cbn zeta. unfold Set_, bind, get_defaultExpiration.
  destruct (Z.gtb_spec (defaultExpiration (cache w)) 0).
  - by rewrite SetWithExpiration_pos.
  - by rewrite SetWithExpiration_nonpos by lia.
Qed.

(** C5, amended. If [Get key] succeeds, [GetOrSet] returns its value and the
    world is the one [Get] left: the compute function has no part in the
    result. Otherwise the compute function runs in the world [Get] left. If
    it returns an error, [GetOrSet] returns that same error and the world is
    the one the function left: nothing is stored. If it returns a non-nil
    value and no error, [GetOrSet] stores the value by [Set], with the
    default expiration of the store, and returns it. *)
Theorem C5_GetOrSet_outcomes (key : string) (fn : M (iface * option error)) (w : World) :
  (forall value w1,
     Get key w = ((value, None), w1) ->
     GetOrSet key fn w = ((value, None), w1)) /\
  (forall x e w1 y err w2,
     Get key w = ((x, Some e), w1) ->
     fn w1 = ((y, Some err), w2) ->
     GetOrSet key fn w = ((None, Some err), w2)) /\
  (forall x e w1 v w2,
     Get key w = ((x, Some e), w1) ->
     fn w1 = ((Some v, None), w2) ->
     let d := defaultExpiration (cache w2) in
     GetOrSet key fn w =
       ((Some v, None),
        with_items
          (<[key := mkItem (Some v)
                      (if d >? 0 then UnixNano (Add (clock (ticks w2)) d) else 0)]>
             (items (cache w2)))
          (if d >? 0 then 1 else 0)%nat w2)).
Proof.
  split; [|split].
  - intros value w1 HGet. unfold GetOrSet, bind. by rewrite HGet.
  - intros x e w1 y err w2 HGet Hfn. unfold GetOrSet, bind.
    by rewrite HGet, Hfn.
  - intros x e w1 v w2 HGet Hfn. cbn zeta. unfold GetOrSet, bind.
    rewrite HGet, Hfn. pose proof (Set_stores key v w2) as HSet.
    cbn zeta in HSet. by rewrite HSet.
Qed.

(** C10. When the key is absent or expired and the compute function returns
    the nil value with no error, [GetOrSet] fails with [ErrNilValue], the
    error of [Set], and stores nothing: the world after the call is the one
    the compute function left. If moreover that function left the cache as
    [Get] left it and the clock did not step back during [Get], there is no
    entry at the key after the call. *)
Theorem C10_GetOrSet_nil_value (key : string) (fn : M (iface * option error))
    (w w2 : World) :
  (items (cache w) !! key = None \/
   exists item, items (cache w) !! key = Some item /\
     Expiration item <> 0 /\ Expiration item < now_of w) ->
  fn (snd (Get key w)) = ((None, None), w2) ->
  GetOrSet key fn w = ((None, Some ErrNilValue), w2) /\
  (cache w2 = cache (snd (Get key w)) ->
   now_of w <= UnixNano (clock (S (ticks w))) ->
   items (cache (snd (GetOrSet key fn w))) !! key = None).
Proof.
  intros Hgone Hfn. destruct (Get_fails key w Hgone) as [e He].
  assert (GetOrSet key fn w = ((None, Some ErrNilValue), w2)) as HGoS.
  { unfold GetOrSet, bind. destruct (Get key w) as [[x oe] w1].
    cbn in He, Hfn. injection He as -> ->. by rewrite Hfn. }
  split; [exact HGoS|]. intros Hcache Hmono. rewrite HGoS. cbn. rewrite Hcache.
  apply (Get_failure_leaves_no_entry key w e Hmono). by rewrite He.
Qed.

(** ** The cleanup goroutine and [Stop] *)

Lemma step_cases (s s' : Sys) :
  step s s' <->
  (sweeper s = SweepSelect /\ s' = mkSys (world s) SweepDeleting (caller s)) \/
  (sweeper s = SweepDeleting /\
   s' = mkSys (snd (DeleteExpired (world s))) SweepSelect (caller s)) \/
  (caller s = StopEntry /\
   s' = mkSys (world s) (sweeper s)
          (if cleanupInterval (cache (world s)) >? 0 then StopSend else StopReturned)) \/
  (caller s = StopSend /\ sweeper s = SweepSelect /\
   s' = mkSys (world s) SweepReturned StopReturned).
Proof.
  unfold step, successors, startCleanupRoutine, Stop, rendezvous.
  destruct s as [w sw c]. cbn [world sweeper caller].
  rewrite !elem_of_app.
  destruct sw, c; try destruct (cleanupInterval (cache w) >? 0);
    rewrite ?list_elem_of_singleton, ?elem_of_nil; intuition congruence.
Qed.

(** No move changes the configured cleanup interval. *)
Lemma step_cleanupInterval (s s' : Sys) :
  step s s' ->
  cleanupInterval (cache (world s')) = cleanupInterval (cache (world s)).
Proof.
  rewrite step_cases.
  intros [[_ ->]|[[_ ->]|[[_ ->]|(_ & _ & ->)]]]; reflexivity.
Qed.

(** On a store without a positive cleanup interval the only move of a caller
    that has entered [Stop] is to return, and that move does not depend on
    the goroutine. *)
Lemma Stop_without_interval_returns (s : Sys) :
  cleanupInterval (cache (world s)) <= 0 ->
  Stop (call_Stop s) = [mkSys (world s) (sweeper s) StopReturned] /\
  step (call_Stop s) (mkSys (world s) (sweeper s) StopReturned).
Proof.
  intros Hzero. split.
  - unfold Stop, call_Stop. cbn [world sweeper caller].
    by destruct (Z.gtb_spec (cleanupInterval (cache (world s))) 0); [lia|].
  - apply step_cases. right; right; left. split; [reflexivity|].
    cbn [world sweeper caller call_Stop].
    by destruct (Z.gtb_spec (cleanupInterval (cache (world s))) 0); [lia|].
Qed.

Lemma first_Stop_inv_step (s s' : Sys) :
  first_Stop_inv s -> step s s' -> first_Stop_inv s'.
Proof.
  intros (Hpos & Hsw & Hc & Hret) Hstep. unfold first_Stop_inv.
  rewrite (step_cleanupInterval _ _ Hstep). split; [exact Hpos|].
  apply step_cases in Hstep.
  destruct (Z.gtb_spec (cleanupInterval (cache (world s))) 0); [|lia].
  destruct Hstep as [[Hs ->]|[[Hs ->]|[[Hs ->]|(Hs & Hs' & ->)]]];
    cbn [world sweeper caller]; repeat split; try done.
  - intros Hdone. specialize (Hret Hdone). congruence.
  - intros Hdone. specialize (Hret Hdone). congruence.
Qed.

Lemma first_Stop_inv_rtc (s s' : Sys) :
  first_Stop_inv s -> rtc step s s' -> first_Stop_inv s'.
Proof.
  intros Hinv Hrtc. induction Hrtc as [|x y z Hxy _ IH]; [done|].
  apply IH. by apply (first_Stop_inv_step x).
Qed.

Lemma later_Stop_inv_step (s s' : Sys) :
  later_Stop_inv s -> step s s' -> later_Stop_inv s'.
Proof.
  intros (Hpos & Hsw & Hc) Hstep. unfold later_Stop_inv.
  rewrite (step_cleanupInterval _ _ Hstep). split; [exact Hpos|].
  apply step_cases in Hstep.
  destruct (Z.gtb_spec (cleanupInterval (cache (world s))) 0); [|lia].
  destruct Hstep as [[Hs ->]|[[Hs ->]|[[Hs ->]|(Hs & Hs' & ->)]]];
    cbn [world sweeper caller]; try congruence; auto.
Qed.

Lemma later_Stop_inv_rtc (s s' : Sys) :
  later_Stop_inv s -> rtc step s s' -> later_Stop_inv s'.
Proof.
  intros Hinv Hrtc. induction Hrtc as [|x y z Hxy _ IH]; [done|].
  apply IH. by apply (later_Stop_inv_step x).
Qed.

(** C2. On a store made by [New] with a positive cleanup interval, a first
    call of [Stop] can run to its return. After it has returned, in whatever
    way, a second call of [Stop] never returns: it reaches the send on
    [stopCleanup], where no move of the system is left. *)
Theorem C2_second_Stop_never_returns (options : Options) (e : Env) :
  0 < CleanupInterval options ->
  (exists s1, rtc step (call_Stop (Sys_New options e)) s1 /\
     caller s1 = StopReturned) /\
  forall s1,
    rtc step (call_Stop (Sys_New options e)) s1 ->
    caller s1 = StopReturned ->
    (forall s2, rtc step (call_Stop s1) s2 -> caller s2 <> StopReturned) /\
    (exists s2, rtc step (call_Stop s1) s2 /\
       caller s2 = StopSend /\ successors s2 = []).
Proof.
  intros Hpos.
  assert ((CleanupInterval options >? 0) = true) as Hgt by (apply Z.gtb_gt; lia).
  split.
  - exists (mkSys (mkWorld (New options) 0 e) SweepReturned StopReturned).
    split; [|reflexivity].
    apply rtc_l with (mkSys (mkWorld (New options) 0 e) SweepSelect StopSend).
    { apply step_cases. right; right; left.
      unfold call_Stop, Sys_New. cbn. by rewrite Hgt. }
    apply rtc_once, step_cases. by right; right; right.
  - intros s1 Hrun Hret.
    assert (first_Stop_inv s1) as (Hpos1 & _ & _ & Hsw).
    { apply (first_Stop_inv_rtc (call_Stop (Sys_New options e))); [|exact Hrun].
      unfold first_Stop_inv, call_Stop, Sys_New. cbn. rewrite Hgt.
      repeat split; try done. }
    specialize (Hsw Hret).
    assert (later_Stop_inv (call_Stop s1)) as Hinv.
    { unfold later_Stop_inv, call_Stop. cbn. auto. }
    assert ((cleanupInterval (cache (world s1)) >? 0) = true) as Hgt1
      by (apply Z.gtb_gt; lia).
    split.
    + intros s2 Hrun2 Hdone.
      destruct (later_Stop_inv_rtc _ _ Hinv Hrun2) as (_ & _ & [Hc|Hc]);
        congruence.
    + exists (mkSys (world s1) (sweeper s1) StopSend). split; [|split].
      * apply rtc_once, step_cases. right; right; left.
        unfold call_Stop. cbn. by rewrite Hgt1.
      * reflexivity.
      * unfold successors, startCleanupRoutine, Stop, rendezvous. cbn.
        by rewrite Hsw.
Qed.

(** * Further properties of the operations *)

(** ** [Get] *)

(** [Get] in full, for any clock. *)
Lemma Get_unfold (key : string) (w : World) :
  Get key w =
    match items (cache w) !! key with
    | None => ((None, Some ErrKeyNotFound), w)
    | Some item =>
      if expired_at (now_of w) item
      then ((None, Some ErrKeyExpired),
            with_items
              (if expired_at (UnixNano (clock (S (ticks w)))) item
               then delete key (items (cache w)) else items (cache w))
              2 w)
      else ((Value item, None),
            if Expiration item =? 0 then w
            else mkWorld (cache w) (S (ticks w)) (env w))
    end.
Proof.
  unfold Get, bind, get_items.
  destruct (items (cache w) !! key) as [item|] eqn:Hk; [|reflexivity].
  rewrite Expired_spec.
  destruct (expired_at (now_of w) item) eqn:Hnow; [|reflexivity].
  apply expired_at_true in Hnow.
  destruct (Z.eqb_spec (Expiration item) 0) as [|_]; [lia|].
  cbn [cache items]. rewrite Hk, Expired_spec.
  destruct (Z.eqb_spec (Expiration item) 0) as [|_]; [lia|].
  unfold now_of. cbn [ticks].
  destruct (expired_at (UnixNano (clock (S (ticks w)))) item);
    destruct w as [[m dE cI] t e]; reflexivity.
Qed.

(** X1. Whatever the clock does, the error of [Get] is nil, [ErrKeyNotFound]
    or [ErrKeyExpired], and with an error the value is nil. [Get] never adds
    or alters an entry: the entries at other keys stay, the entry at [key]
    stays or is deleted, a successful [Get] leaves the whole cache as it is,
    and the configuration and the captured state of the caller stay. *)
Theorem X1_Get_errors_and_frame (key : string) (w : World) :
  (snd (fst (Get key w)) = None \/
   snd (fst (Get key w)) = Some ErrKeyNotFound \/
   snd (fst (Get key w)) = Some ErrKeyExpired) /\
  (snd (fst (Get key w)) <> None -> fst (fst (Get key w)) = None) /\
  (snd (fst (Get key w)) = None -> cache (snd (Get key w)) = cache w) /\
  (forall k, k <> key ->
     items (cache (snd (Get key w))) !! k = items (cache w) !! k) /\
  (items (cache (snd (Get key w))) !! key = items (cache w) !! key \/
   items (cache (snd (Get key w))) !! key = None) /\
  defaultExpiration (cache (snd (Get key w))) = defaultExpiration (cache w) /\
  cleanupInterval (cache (snd (Get key w))) = cleanupInterval (cache w) /\
  env (snd (Get key w)) = env w.
Proof.
  rewrite Get_unfold.
  destruct (items (cache w) !! key) as [item|] eqn:Hk.
  - destruct (expired_at (now_of w) item).
    + destruct (expired_at _ item); cbn;
        (split; [auto|]); (split; [done|]); (split; [done|]);
        (split; [intros k Hne; by rewrite ?lookup_delete_ne|]);
        rewrite ?lookup_delete_eq; auto.
    + destruct (Expiration item =? 0); cbn;
        (split; [auto|]); (split; [done|]); (split; [done|]);
        (split; [done|]); auto.
  - cbn. rewrite Hk. repeat split; auto.
Qed.

(** ** [Delete] *)

(** X2. [Delete] returns true exactly when the key was present. After it
    the mapping is the old one without [key] and everything else in the
    world is as before; [ItemCount] has gone down by one if the key was
    present and not at all otherwise; [Get] on the key fails with
    [ErrKeyNotFound], and a second [Delete] returns false and changes
    nothing. *)
Theorem X2_Delete_reports_and_removes (key : string) (w : World) :
  let w' := snd (Delete key w) in
  (fst (Delete key w) = true <-> is_Some (items (cache w) !! key)) /\
  w' = with_items (delete key (items (cache w))) 0 w /\
  fst (ItemCount w') = fst (ItemCount w) - (if fst (Delete key w) then 1 else 0) /\
  Get key w' = ((None, Some ErrKeyNotFound), w') /\
  Delete key w' = (false, w').
Proof.
  cbn zeta.
  assert (snd (Delete key w) = with_items (delete key (items (cache w))) 0 w) as Hw'.
  { unfold Delete, bind, get_items.
    destruct (items (cache w) !! key) eqn:Hk; [reflexivity|].
    rewrite delete_id by done. destruct w as [[m dE cI] t e]. reflexivity. }
  split; [|split; [exact Hw'|]].
  - unfold Delete, bind, get_items.
    destruct (items (cache w) !! key) eqn:Hk; cbn.
    + split; eauto.
    + split; [done|]. intros [? ?]. done.
  - rewrite Hw'. split; [|split].
    + unfold Delete, bind, get_items. cbn.
      rewrite map_size_delete.
      destruct (items (cache w) !! key) eqn:Hk; cbn; [|lia].
      assert (size (items (cache w)) <> 0%nat); [|lia].
      apply map_size_non_empty_iff. intros Hemp. by rewrite Hemp, lookup_empty in Hk.
    + unfold Get, bind, get_items. cbn. by rewrite lookup_delete_eq.
    + unfold Delete, bind, get_items. cbn. by rewrite lookup_delete_eq.
Qed.

(** ** [Flush] and [New] *)

(** X3. After [Flush], whatever the store held: [ItemCount] is 0, [Items]
    is empty, every [Get] fails with [ErrKeyNotFound] and every [Delete]
    returns false. [Flush] keeps the configuration of the store and does not
    read the clock. *)
Theorem X3_Flush_empties (w : World) :
  let w' := snd (Flush w) in
  w' = with_items ∅ 0 w /\
  ItemCount w' = (0, w') /\
  fst (Items w') = ∅ /\
  (forall key, Get key w' = ((None, Some ErrKeyNotFound), w')) /\
  (forall key, Delete key w' = (false, w')).
Proof.
  cbn zeta. split; [reflexivity|]. split; [reflexivity|]. split.
  - apply map_eq. intros k. destruct (Items_spec (snd (Flush w))) as [_ ->].
    cbn. by rewrite !lookup_empty.
  - split; intros key.
    + unfold Get, bind, get_items. cbn. by rewrite lookup_empty.
    + unfold Delete, bind, get_items. cbn. by rewrite lookup_empty.
Qed.

(** X4. The store made by [New] is empty: every [Get] fails with
    [ErrKeyNotFound], [ItemCount] is 0 and [Items] is empty; and [Set] on it
    is [SetWithExpiration] with the [DefaultExpiration] of the options. *)
Theorem X4_New_is_empty (options : Options) (e : Env) (n : nat) :
  let w := mkWorld (New options) n e in
  (forall key, Get key w = ((None, Some ErrKeyNotFound), w)) /\
  ItemCount w = (0, w) /\
  fst (Items w) = ∅ /\
  (forall key value,
     Set_ key value w = SetWithExpiration key value (DefaultExpiration options) w).
Proof.
  cbn zeta. split; [|split; [reflexivity|split]].
  - intros key. unfold Get, bind, get_items. cbn. by rewrite lookup_empty.
  - apply map_eq. intros k. destruct (Items_spec (mkWorld (New options) n e)) as [_ ->].
    cbn. by rewrite !lookup_empty.
  - reflexivity.
Qed.

(** ** [SetWithExpiration] and [Set], composed with the other operations *)

(** The mapping after [SetWithExpiration] with a non-nil value, and the rest
    of the world: only the number of clock readings may have grown. *)
Lemma SetWithExpiration_unfold (key : string) (v : V) (d : Duration) (w : World) :
  SetWithExpiration key (Some v) d w =
    (None,
     with_items
       (<[key := mkItem (Some v)
                   (if d >? 0 then UnixNano (Add (clock (ticks w)) d) else 0)]>
          (items (cache w)))
       (if d >? 0 then 1 else 0)%nat w).
Proof.
  destruct (Z.gtb_spec d 0).
  - by apply SetWithExpiration_pos.
  - apply SetWithExpiration_nonpos. lia.
Qed.

(** X5. [SetWithExpiration] with a non-nil value returns no error for every
    duration, touches no entry but the one at [key], keeps the configuration
    and the captured state, and raises [ItemCount] by one if the key was
    absent and not at all if it was present. A [Delete] of the key right
    after returns true and leaves the mapping the store had before, without
    the key. *)
Theorem X5_SetWithExpiration_frame (key : string) (v : V) (d : Duration) (w : World) :
  let w' := snd (SetWithExpiration key (Some v) d w) in
  fst (SetWithExpiration key (Some v) d w) = None /\
  (forall k, k <> key -> items (cache w') !! k = items (cache w) !! k) /\
  fst (ItemCount w') =
    fst (ItemCount w) +
      match items (cache w) !! key with Some _ => 0 | None => 1 end /\
  defaultExpiration (cache w') = defaultExpiration (cache w) /\
  cleanupInterval (cache w') = cleanupInterval (cache w) /\
  env w' = env w /\
  fst (Delete key w') = true /\
  items (cache (snd (Delete key w'))) = delete key (items (cache w)).
Proof.
  cbn zeta. rewrite SetWithExpiration_unfold. cbn.
  split; [done|]. split; [intros k Hne; by rewrite lookup_insert_ne|].
  split.
  { rewrite map_size_insert. destruct (items (cache w) !! key); cbn; lia. }
  split; [done|]. split; [done|]. split; [done|].
  unfold Delete, bind, get_items. cbn. rewrite lookup_insert_eq. cbn.
  split; [done|]. apply delete_insert_eq.
Qed.

(** X6. A [Get] that follows [SetWithExpiration] with a non-nil value returns
    that value and no error, and leaves the cache as it is, when the
    duration is zero or negative, or when the clock reading of the [Get] is
    not later than the expiration that was stored. *)
Theorem X6_SetWithExpiration_then_Get (key : string) (v : V) (d : Duration) (w : World) :
  d <= 0 \/ UnixNano (clock (S (ticks w))) <= UnixNano (Add (clock (ticks w)) d) ->
  let w' := snd (SetWithExpiration key (Some v) d w) in
  fst (Get key w') = (Some v, None) /\
  cache (snd (Get key w')) = cache w'.
Proof.
  intros Hlive. cbn zeta. rewrite SetWithExpiration_unfold, Get_unfold.
  cbn [snd with_items cache items]. rewrite lookup_insert_eq.
  destruct (Z.gtb_spec d 0) as [Hpos|Hnonpos].
  - destruct Hlive as [|Hlive]; [lia|].
    assert (expired_at (now_of (with_items
              (<[key:=mkItem (Some v) (UnixNano (Add (clock (ticks w)) d))]>
                 (items (cache w))) 1 w))
              (mkItem (Some v) (UnixNano (Add (clock (ticks w)) d))) = false) as ->.
    { apply expired_at_false. right. unfold now_of. cbn. exact Hlive. }
    cbn. split; [done|]. by destruct (_ =? 0).
  - by cbn.
Qed.

(** X7. After [SetWithExpiration] with a positive duration, once the clock
    has passed the stored expiration, [Get] fails with [ErrKeyExpired] and
    evicts the entry: the mapping is the one the store had before the
    [SetWithExpiration], without the key, and if the key was absent then
    [ItemCount] is back to what it was. The world [w2] is any world with the
    cache that [SetWithExpiration] left; its clock is taken not to step back
    between the two readings of [Get]. *)
Theorem X7_SetWithExpiration_then_expired (key : string) (v : V) (d : Duration)
    (w w2 : World) :
  0 < d ->
  cache w2 = cache (snd (SetWithExpiration key (Some v) d w)) ->
  UnixNano (Add (clock (ticks w)) d) <> 0 ->
  UnixNano (Add (clock (ticks w)) d) < now_of w2 ->
  now_of w2 <= UnixNano (clock (S (ticks w2))) ->
  fst (Get key w2) = (None, Some ErrKeyExpired) /\
  items (cache (snd (Get key w2))) = delete key (items (cache w)) /\
  (items (cache w) !! key = None ->
   fst (ItemCount (snd (Get key w2))) = fst (ItemCount w)).
Proof.
  intros Hd Hcache Hset Hpast Hmono.
  rewrite SetWithExpiration_pos in Hcache by done. cbn in Hcache.
  rewrite Get_unfold, Hcache. cbn [items]. rewrite lookup_insert_eq.
  set (item := mkItem (Some v) (UnixNano (Add (clock (ticks w)) d))).
  assert (expired_at (now_of w2) item = true) as ->
    by (apply expired_at_true; cbn; lia).
  assert (expired_at (UnixNano (clock (S (ticks w2)))) item = true) as ->
    by (apply expired_at_true; cbn; lia).
  cbn. rewrite delete_insert_eq. split; [done|]. split; [done|].
  intros Habsent. by rewrite delete_id.
Qed.

(** X8. Last write wins: after two [SetWithExpiration] with non-nil values
    on one key, the mapping is what the second call alone would have made of
    the mapping before the first, at the clock reading of the second call;
    [ItemCount] is the same after the second call as after the first. *)
Theorem X8_SetWithExpiration_overwrites (key : string) (v1 v2 : V) (d1 d2 : Duration)
    (w : World) :
  let w1 := snd (SetWithExpiration key (Some v1) d1 w) in
  let w2 := snd (SetWithExpiration key (Some v2) d2 w1) in
  items (cache w2) =
    <[key := mkItem (Some v2)
               (if d2 >? 0 then UnixNano (Add (clock (ticks w1)) d2) else 0)]>
      (items (cache w)) /\
  fst (ItemCount w2) = fst (ItemCount w1).
Proof.
  cbn zeta. rewrite !SetWithExpiration_unfold. cbn.
  rewrite insert_insert_eq. split; [reflexivity|].
  rewrite !map_size_insert. by destruct (items (cache w) !! key).
Qed.

(** ** [DeleteExpired] and [Items] on every store *)

(** X9. [DeleteExpired] never removes an entry that [Expired] reports as
    not expired at the reading of the sweep, the never-expiring ones among
    them, and never adds or alters an entry; so [ItemCount] does not grow.
    It reads the clock once and keeps the configuration and the captured
    state. *)
Theorem X9_DeleteExpired_only_removes_expired (w : World) :
  let w' := snd (DeleteExpired w) in
  (forall k item,
     items (cache w) !! k = Some item ->
     expired_at (now_of w) item = false ->
     items (cache w') !! k = Some item) /\
  (forall k item,
     items (cache w') !! k = Some item -> items (cache w) !! k = Some item) /\
  fst (ItemCount w') <= fst (ItemCount w) /\
  defaultExpiration (cache w') = defaultExpiration (cache w) /\
  cleanupInterval (cache w') = cleanupInterval (cache w) /\
  ticks w' = S (ticks w) /\
  env w' = env w.
Proof.
  cbn zeta. destruct (DeleteExpired_spec w) as (m' & -> & Hm'). cbn.
  assert (forall k item, m' !! k = Some item -> items (cache w) !! k = Some item)
    as Hsub.
  { intros k item. rewrite Hm'. destruct (items (cache w) !! k); [|done].
    by case_decide. }
  split; [|split; [exact Hsub|split; [|done]]].
  - intros k item Hk Hlive. rewrite Hm', Hk.
    apply expired_at_false in Hlive. case_decide; [lia|done].
  - apply inj_le, map_subseteq_size, map_subseteq_spec. exact Hsub.
Qed.

(** X10. On a store with no negative expiration, [DeleteExpired] removes
    exactly the entries that [Expired] reports as expired at the reading of
    the sweep: an entry is there afterwards if and only if it was there
    before and is not expired. *)
Theorem X10_DeleteExpired_exact (w : World) :
  nonneg_expirations w ->
  forall k,
    items (cache (snd (DeleteExpired w))) !! k =
      match items (cache w) !! k with
      | Some item => if expired_at (now_of w) item then None else Some item
      | None => None
      end.
Proof.
  intros Hnonneg k. destruct (DeleteExpired_spec w) as (m' & -> & Hm'). cbn.
  rewrite Hm'. destruct (items (cache w) !! k) as [item|] eqn:Hk; [|done].
  specialize (Hnonneg k item Hk).
  destruct (expired_at (now_of w) item) eqn:Hexp.
  - apply expired_at_true in Hexp. case_decide; [done|lia].
  - apply expired_at_false in Hexp. case_decide; [lia|done].
Qed.

(** X11. No operation of the store makes an expiration negative, as long as
    [SetWithExpiration] is called with a duration that is zero or negative,
    or whose sum with the clock reading lies between 0 and the largest
    [int64]: the stores for which X10 speaks are closed under [Get],
    [Delete], [DeleteExpired], [Flush] and such calls of
    [SetWithExpiration]. *)
Theorem X11_nonneg_expirations_kept (w : World) :
  nonneg_expirations w ->
  (forall key value d,
     d <= 0 \/ 0 <= clock (ticks w) + d <= Int64.max_int ->
     nonneg_expirations (snd (SetWithExpiration key value d w))) /\
  (forall key, nonneg_expirations (snd (Get key w))) /\
  (forall key, nonneg_expirations (snd (Delete key w))) /\
  nonneg_expirations (snd (DeleteExpired w)) /\
  nonneg_expirations (snd (Flush w)).
Proof.
  intros Hinv. repeat split.
  - intros key [v|] d Hd; [|exact Hinv].
    rewrite SetWithExpiration_unfold. intros k item. cbn.
    destruct (decide (key = k)) as [->|Hne].
    + rewrite lookup_insert_eq. intros [= <-]. cbn.
      destruct (Z.gtb_spec d 0); [|lia].
      destruct Hd as [|Hd]; [lia|].
      unfold UnixNano, Add. rewrite Int64_wrap_id; [lia|].
      unfold Int64.in_range, Int64.min_int. lia.
    + rewrite lookup_insert_ne by done. apply Hinv.
  - intros key k item. rewrite Get_unfold.
    destruct (items (cache w) !! key) as [it|] eqn:Hk; [|apply Hinv].
    destruct (expired_at (now_of w) it).
    + destruct (expired_at _ it); cbn; [|apply Hinv].
      intros Hk'. apply lookup_delete_Some in Hk' as [_ Hk']. by apply (Hinv k).
    + destruct (Expiration it =? 0); apply Hinv.
  - intros key k item. unfold Delete, bind, get_items.
    destruct (items (cache w) !! key); [|apply Hinv]. cbn.
    intros Hk'. apply lookup_delete_Some in Hk' as [_ Hk']. by apply (Hinv k).
  - intros k item. destruct (DeleteExpired_spec w) as (m' & -> & Hm'). cbn.
    rewrite Hm'. destruct (items (cache w) !! k) as [it|] eqn:Hk; [|done].
    case_decide; [done|]. intros [= <-]. by apply (Hinv k).
  - intros k item. cbn. by rewrite lookup_empty.
Qed.

(** X12. [Items] agrees with [Get]: for every key that [Items] lists with a
    value, [Get] at the same reading of the clock returns that value and no
    error. [Items] itself leaves the cache as it is. *)
Theorem X12_Items_agrees_with_Get (w : World) (k : string) (x : iface) :
  fst (Items w) !! k = Some x ->
  fst (Get k w) = (x, None) /\
  cache (snd (Items w)) = cache w.
Proof.
  intros Hin. split; [|reflexivity].
  destruct (Items_only_unexpired w k x Hin) as (item & Hk & <- & Hlive).
  by rewrite Get_unfold, Hk, Hlive.
Qed.

(** X13. [Items] lists only keys of the store, so it has at most
    [ItemCount] entries, and it lists every never-expiring entry with its
    value, whatever the clock reads. *)
Theorem X13_Items_bounds (w : World) :
  (forall k, is_Some (fst (Items w) !! k) -> is_Some (items (cache w) !! k)) /\
  Z.of_nat (size (fst (Items w))) <= fst (ItemCount w) /\
  (forall k item,
     items (cache w) !! k = Some item -> Expiration item = 0 ->
     fst (Items w) !! k = Some (Value item)).
Proof.
  destruct (Items_spec w) as [_ Hlook].
  assert (forall k, is_Some (fst (Items w) !! k) -> is_Some (items (cache w) !! k))
    as Hdom.
  { intros k. rewrite Hlook. destruct (items (cache w) !! k); [eauto|].
    by intros [? ?]. }
  split; [exact Hdom|split].
  - cbn [ItemCount bind get_items ret fst].
    apply inj_le. rewrite <- !size_dom.
    apply subseteq_size. intros k. rewrite !elem_of_dom. apply Hdom.
  - intros k item Hk Hzero. rewrite Hlook, Hk. case_decide; [done|lia].
Qed.

(** ** The store never holds nil *)

(** X14. If no entry of the store holds the nil value, none does after any
    operation: [SetWithExpiration] and [Set] with any value and duration,
    [Get], [Delete], [DeleteExpired], [Flush], and [GetOrSet] with a compute
    function that itself keeps the store free of nil. On such a store a
    successful [Get] returns a non-nil value and [Items] lists no nil
    value. *)
Theorem X14_no_nil_values_kept (w : World) :
  no_nil_values w ->
  (forall key value d, no_nil_values (snd (SetWithExpiration key value d w))) /\
  (forall key value, no_nil_values (snd (Set_ key value w))) /\
  (forall key, no_nil_values (snd (Get key w))) /\
  (forall key, no_nil_values (snd (Delete key w))) /\
  no_nil_values (snd (DeleteExpired w)) /\
  no_nil_values (snd (Flush w)) /\
  (forall key fn,
     (forall w', no_nil_values w' -> no_nil_values (snd (fn w'))) ->
     no_nil_values (snd (GetOrSet key fn w))) /\
  (forall key x, fst (Get key w) = (x, None) -> x <> None) /\
  (forall k x, fst (Items w) !! k = Some x -> x <> None).
Proof.
  intros Hinv.
  assert (forall w0, no_nil_values w0 ->
            forall key value d, no_nil_values (snd (SetWithExpiration key value d w0)))
    as HSet.
  { intros w0 H0 key [v|] d; [|exact H0].
    rewrite SetWithExpiration_unfold. intros k item. cbn.
    destruct (decide (key = k)) as [->|Hne].
    - rewrite lookup_insert_eq. by intros [= <-].
    - rewrite lookup_insert_ne by done. apply H0. }
  assert (forall key, no_nil_values (snd (Get key w))) as HGet.
  { intros key k item. rewrite Get_unfold.
    destruct (items (cache w) !! key) as [it|] eqn:Hk; [|apply Hinv].
    destruct (expired_at (now_of w) it).
    - destruct (expired_at _ it); cbn; [|apply Hinv].
      intros Hk'. apply lookup_delete_Some in Hk' as [_ Hk']. by apply (Hinv k).
    - destruct (Expiration it =? 0); apply Hinv. }
  split; [by apply HSet|]. split; [intros key value; by apply HSet|].
  split; [exact HGet|]. split; [|split; [|split; [|split; [|split]]]].
  - intros key k item. unfold Delete, bind, get_items.
    destruct (items (cache w) !! key); [|apply Hinv]. cbn.
    intros Hk'. apply lookup_delete_Some in Hk' as [_ Hk']. by apply (Hinv k).
  - intros k item. destruct (DeleteExpired_spec w) as (m' & -> & Hm'). cbn.
    rewrite Hm'. destruct (items (cache w) !! k) as [it|] eqn:Hk; [|done].
    case_decide; [done|]. intros [= <-]. by apply (Hinv k).
  - intros k item. cbn. by rewrite lookup_empty.
  - intros key fn Hfn. unfold GetOrSet, bind.
    specialize (HGet key). destruct (Get key w) as [[x [e|]] w1]; [|exact HGet].
    cbn in HGet. specialize (Hfn w1 HGet).
    destruct (fn w1) as [[y [err|]] w2]; [exact Hfn|]. cbn in Hfn.
    pose proof (HSet w2 Hfn key y (defaultExpiration (cache w2))) as HS.
    unfold Set_, bind, get_defaultExpiration.
    destruct (SetWithExpiration key y (defaultExpiration (cache w2)) w2) as [[?|] w3];
      exact HS.
  - intros key x. rewrite Get_unfold.
    destruct (items (cache w) !! key) as [it|] eqn:Hk; [|done].
    destruct (expired_at (now_of w) it); [done|].
    intros [= <-]. by apply (Hinv key).
  - intros k x Hin.
    destruct (Items_only_unexpired w k x Hin) as (item & Hk & <- & _).
    by apply (Hinv k).
Qed.

(** ** [GetOrSet], twice *)

(** X15. Once [GetOrSet] has computed and stored a non-nil value, a later
    [GetOrSet] on the key returns that value whatever compute function it is
    given, as long as the stored entry has not expired: the default
    expiration of the store is zero or negative, or the clock reading of the
    later call is not past the stored expiration. The later call leaves the
    cache and the captured state of the caller as they are: its compute
    function does not run. The world [w'] is any world with the cache that
    the first call left. *)
Theorem X15_GetOrSet_second_call_cached (key : string)
    (fn fn2 : M (iface * option error)) (w w1 w2 w' : World)
    (x : iface) (e : error) (v : V) :
  Get key w = ((x, Some e), w1) ->
  fn w1 = ((Some v, None), w2) ->
  cache w' = cache (snd (GetOrSet key fn w)) ->
  defaultExpiration (cache w2) <= 0 \/
    now_of w' <= UnixNano (Add (clock (ticks w2)) (defaultExpiration (cache w2))) ->
  fst (GetOrSet key fn2 w') = (Some v, None) /\
  cache (snd (GetOrSet key fn2 w')) = cache w' /\
  env (snd (GetOrSet key fn2 w')) = env w'.
Proof.
  intros HGet Hfn Hcache Hlive.
  assert (snd (GetOrSet key fn w) = snd (Set_ key (Some v) w2)) as Hfirst.
  { unfold GetOrSet, bind. rewrite HGet, Hfn.
    pose proof (Set_stores key v w2) as HS. cbn zeta in HS. by rewrite HS. }
  rewrite Hfirst in Hcache. pose proof (Set_stores key v w2) as HS.
  cbn zeta in HS. rewrite HS in Hcache. cbn in Hcache.
  unfold GetOrSet, bind. rewrite Get_unfold, Hcache. cbn [items].
  rewrite lookup_insert_eq.
  set (item := mkItem (Some v) _).
  assert (expired_at (now_of w') item = false) as ->.
  { apply expired_at_false. subst item. cbn.
    destruct (Z.gtb_spec (defaultExpiration (cache w2)) 0); [|by left].
    destruct Hlive as [|Hlive]; [lia|by right]. }
  destruct (Expiration item =? 0); cbn; by rewrite ?Hcache.
Qed.

(** ** The cleanup goroutine and [Stop], further *)

Lemma Stop_pending_inv_step (s s' : Sys) :
  Stop_pending_inv s -> step s s' -> Stop_pending_inv s'.
Proof.
  intros [Hpos Hpc] Hstep. unfold Stop_pending_inv.
  rewrite (step_cleanupInterval _ _ Hstep). split; [exact Hpos|].
  apply step_cases in Hstep.
  destruct (Z.gtb_spec (cleanupInterval (cache (world s))) 0); [|lia].
  destruct Hstep as [[Hs ->]|[[Hs ->]|[[Hs ->]|(Hs & Hs' & ->)]]];
    cbn [world sweeper caller].
  - destruct Hpc as [[_ Hsw]|[Hc _]]; [congruence|]. right. auto.
  - destruct Hpc as [[_ Hsw]|[Hc _]]; [congruence|]. right. auto.
  - destruct Hpc as [[Hc _]|[_ Hsw]]; [congruence|]. right. auto.
  - left. auto.
Qed.

Lemma Stop_pending_inv_rtc (s s' : Sys) :
  Stop_pending_inv s -> rtc step s s' -> Stop_pending_inv s'.
Proof.
  intros Hinv Hrtc. induction Hrtc as [|x y z Hxy _ IH]; [done|].
  apply IH. by apply (Stop_pending_inv_step x).
Qed.

Lemma Stop_pending_inv_init (options : Options) (e : Env) :
  0 < CleanupInterval options ->
  Stop_pending_inv (call_Stop (Sys_New options e)).
Proof.
  intros Hpos. unfold Stop_pending_inv, call_Stop, Sys_New. cbn.
  destruct (Z.gtb_spec (CleanupInterval options) 0); [|lia]. auto.
Qed.

(** X16. On a store without a positive cleanup interval, where [New] has
    started no goroutine, a call of [Stop] has one run only: its single move
    is to return, with the world as it was. This holds at every call, the
    first and the later ones. *)
Theorem X16_Stop_without_interval (s s' : Sys) :
  cleanupInterval (cache (world s)) <= 0 ->
  sweeper s = SweepAbsent ->
  rtc step (call_Stop s) s' ->
  step (call_Stop s) (mkSys (world s) SweepAbsent StopReturned) /\
  (s' = call_Stop s \/ s' = mkSys (world s) SweepAbsent StopReturned).
Proof.
  intros Hzero Habsent Hrun.
  assert ((cleanupInterval (cache (world s)) >? 0) = false) as Hgt
    by (destruct (Z.gtb_spec (cleanupInterval (cache (world s))) 0); [lia|done]).
  assert (forall t, step (call_Stop s) t ->
            t = mkSys (world s) SweepAbsent StopReturned) as Hone.
  { intros t Ht. apply step_cases in Ht. unfold call_Stop in Ht.
    cbn [world sweeper caller] in Ht. rewrite Hgt, Habsent in Ht.
    destruct Ht as [[? _]|[[? _]|[[_ ->]|(? & _)]]]; congruence. }
  split.
  - apply step_cases. right; right; left. unfold call_Stop.
    cbn [world sweeper caller]. by rewrite Hgt, Habsent.
  - apply rtc_inv in Hrun as [<-|(t & Ht & Hrest)]; [by left|].
    apply Hone in Ht as ->. right.
    apply rtc_inv in Hrest as [<-|(t' & Ht' & _)]; [done|].
    apply step_cases in Ht'. cbn [world sweeper caller] in Ht'.
    destruct Ht' as [[? _]|[[? _]|[[? _]|(? & _)]]]; congruence.
Qed.

(** X17. On a store made by [New] with a positive cleanup interval, the first
    call of [Stop] cannot get stuck: from every state that the system
    reaches during the call, whether the goroutine waits in its [select] or
    is inside [DeleteExpired], some run leads to the return of [Stop]. *)
Theorem X17_first_Stop_can_return (options : Options) (e : Env) (s : Sys) :
  0 < CleanupInterval options ->
  rtc step (call_Stop (Sys_New options e)) s ->
  exists s', rtc step s s' /\ caller s' = StopReturned.
Proof.
  intros Hpos Hrun.
  destruct (Stop_pending_inv_rtc _ _ (Stop_pending_inv_init options e Hpos) Hrun)
    as [Hpos' Hpc].
  assert ((cleanupInterval (cache (world s)) >? 0) = true) as Hgt
    by (apply Z.gtb_gt; lia).
  assert (forall t, caller t = StopSend -> sweeper t = SweepSelect ->
            exists t', rtc step t t' /\ caller t' = StopReturned) as Hmeet.
  { intros t Hc Hsw. exists (mkSys (world t) SweepReturned StopReturned).
    split; [|done]. apply rtc_once, step_cases. by right; right; right. }
  assert (forall t, caller t = StopSend -> sweeper t = SweepDeleting ->
            exists t', rtc step t t' /\ caller t' = StopReturned) as Hwait.
  { intros t Hc Hsw.
    destruct (Hmeet (mkSys (snd (DeleteExpired (world t))) SweepSelect (caller t)))
      as (t' & Ht' & Hdone); [done|done|].
    exists t'. split; [|done]. eapply rtc_l; [|exact Ht'].
    apply step_cases. right; left. done. }
  destruct Hpc as [[Hc _]|[[Hc|Hc] [Hsw|Hsw]]].
  - exists s. split; [apply rtc_refl|done].
  - destruct (Hmeet (mkSys (world s) (sweeper s) StopSend)) as (t' & Ht' & Hdone);
      [done|done|].
    exists t'. split; [|done]. eapply rtc_l; [|exact Ht'].
    apply step_cases. right; right; left. by rewrite Hgt.
  - destruct (Hwait (mkSys (world s) (sweeper s) StopSend)) as (t' & Ht' & Hdone);
      [done|done|].
    exists t'. split; [|done]. eapply rtc_l; [|exact Ht'].
    apply step_cases. right; right; left. by rewrite Hgt.
  - by apply Hmeet.
  - by apply Hwait.
Qed.

(** X18. Once the first [Stop] on a store with a positive cleanup interval
    has returned, the goroutine has returned too and the system has no move
    left: no sweep runs after [Stop], and the world stays as it is until the
    caller acts again. *)
Theorem X18_no_sweep_after_Stop (options : Options) (e : Env) (s1 s2 : Sys) :
  0 < CleanupInterval options ->
  rtc step (call_Stop (Sys_New options e)) s1 ->
  caller s1 = StopReturned ->
  rtc step s1 s2 ->
  sweeper s1 = SweepReturned /\ successors s1 = [] /\ s2 = s1.
Proof.
  intros Hpos Hrun Hdone Hlater.
  destruct (Stop_pending_inv_rtc _ _ (Stop_pending_inv_init options e Hpos) Hrun)
    as [_ [[_ Hsw]|[[Hc|Hc] _]]]; [|congruence|congruence].
  assert (successors s1 = []) as Hnone.
  { unfold successors, startCleanupRoutine, Stop, rendezvous.
    by rewrite Hsw, Hdone. }
  split; [exact Hsw|]. split; [exact Hnone|].
  apply rtc_inv in Hlater as [<-|(t & Ht & _)]; [done|].
  unfold step in Ht. rewrite Hnone in Ht. by apply elem_of_nil in Ht.
Qed.

(** X19. The moves of the goroutine and of [Stop] never add or alter an
    entry and never remove a never-expiring one, and they keep the
    configuration and the captured state of the caller: along every run of
    the system, the entries of the store are entries it had at the start,
    and every entry with expiration 0 is still there. *)
Theorem X19_sweeps_keep_never_expiring (s s' : Sys) :
  rtc step s s' ->
  (forall k item,
     items (cache (world s')) !! k = Some item ->
     items (cache (world s)) !! k = Some item) /\
  (forall k item,
     items (cache (world s)) !! k = Some item -> Expiration item = 0 ->
     items (cache (world s')) !! k = Some item) /\
  defaultExpiration (cache (world s')) = defaultExpiration (cache (world s)) /\
  cleanupInterval (cache (world s')) = cleanupInterval (cache (world s)) /\
  env (world s') = env (world s).
Proof.
  intros Hrun. induction Hrun as [s|s t s' Hst _ IH]; [done|].
  destruct IH as (Hsub & Hkeep & HdE & HcI & Henv).
  assert ((forall k item,
             items (cache (world t)) !! k = Some item ->
             items (cache (world s)) !! k = Some item) /\
          (forall k item,
             items (cache (world s)) !! k = Some item -> Expiration item = 0 ->
             items (cache (world t)) !! k = Some item) /\
          defaultExpiration (cache (world t)) = defaultExpiration (cache (world s)) /\
          cleanupInterval (cache (world t)) = cleanupInterval (cache (world s)) /\
          env (world t) = env (world s)) as (Hsub1 & Hkeep1 & HdE1 & HcI1 & Henv1).
  { apply step_cases in Hst.
    destruct Hst as [[_ ->]|[[_ ->]|[[_ ->]|(_ & _ & ->)]]];
      cbn [world]; try done.
    destruct (DeleteExpired_spec (world s)) as (m' & -> & Hm'). cbn.
    repeat split.
    - intros k item. rewrite Hm'. destruct (items (cache (world s)) !! k); [|done].
      by case_decide.
    - intros k item Hk Hzero. rewrite Hm', Hk. case_decide; [lia|done]. }
  repeat split; try congruence.
  - intros k item Hk. by apply Hsub1, Hsub.
  - intros k item Hk Hzero. apply Hkeep; [|done]. by apply Hkeep1.
Qed.

End Gocache.

(** * The properties at concrete runs

    Values are strings. Unless said otherwise the clock advances by 100ns
    from one reading to the next, from 1000ns on, and the closures of the
    caller capture nothing. *)

(** C1 at a store that holds an entry which expired at 950ns, read at
    1000ns: [ErrKeyExpired], and the entry is gone. *)
Lemma C1_Get_three_outcomes_witness :
  let clk : nat -> Time := fun n => 1000 + 100 * Z.of_nat n in
  let w : @World string unit :=
    mkWorld (mkCache {[ "a" := mkItem (Some "v") 950 ]} 0 0) 0 tt in
  now_of clk w <= UnixNano (clk 1%nat) /\
  fst (Get clk "a" w) = (None, Some ErrKeyExpired) /\
  items (cache (snd (Get clk "a" w))) = delete "a" (items (cache w)) /\
  defaultExpiration (cache (snd (Get clk "a" w))) = defaultExpiration (cache w) /\
  cleanupInterval (cache (snd (Get clk "a" w))) = cleanupInterval (cache w) /\
  env (snd (Get clk "a" w)) = env w.
Proof.
  intros clk w.
  assert (now_of clk w <= UnixNano (clk 1%nat)) as Hmono
    by (vm_compute; discriminate).
  split; [exact Hmono|].
  exact (C1_Get_three_outcomes clk "a" w Hmono).
Defined.

(** The assumption on the clock is used: when the wall clock steps back
    between the two readings of [Get], from 1000ns to 900ns here, the call
    still fails with [ErrKeyExpired] but the test under the write lock keeps
    the entry. *)
Example Get_clock_steps_back :
  let clk : nat -> Time := fun n => 1000 - 100 * Z.of_nat n in
  let w : @World string unit :=
    mkWorld (mkCache {[ "a" := mkItem (Some "v") 950 ]} 0 0) 0 tt in
  fst (Get clk "a" w) = (None, Some ErrKeyExpired) /\
  items (cache (snd (Get clk "a" w))) !! "a" = Some (mkItem (Some "v") 950).
Proof. split; reflexivity. Qed.

(** [Set] with the nil value and [ItemCount], at concrete stores. *)
Example Set_nil_keeps_entry :
  let clk : nat -> Time := fun n => 1000 + 100 * Z.of_nat n in
  let w : @World string unit :=
    mkWorld (mkCache {[ "a" := mkItem (Some "v") 0 ]} 500 0) 0 tt in
  Set_ clk "a" None w = (Some ErrNilValue, w).
Proof. reflexivity. Qed.

Example ItemCount_counts_expired :
  let w : @World string unit :=
    mkWorld (mkCache {[ "a" := mkItem (Some "v") 950; "b" := mkItem (Some "x") 0 ]} 0 0)
            7 tt in
  ItemCount w = (2, w).
Proof. reflexivity. Qed.

(** C4 as it was stated fails when [now + duration] leaves [int64]. At a
    clock reading of 1.8e18 ns (January 2027) and the largest duration, the
    stored expiration is the wrapped sum, a negative number, not
    [now + duration]; the entry is reported expired by a [Get] at that very
    instant. *)
Lemma C4_counterexample_overflow :
  let clk : nat -> Time := fun _ => 1800000000000000000 in
  let w : @World string unit := mkWorld (New (mkOptions 0 0)) 0 tt in
  let w1 := snd (SetWithExpiration clk "k" (Some "v") Int64.max_int w) in
  0 < Int64.max_int /\
  items (cache w1) !! "k" = Some (mkItem (Some "v") (-7423372036854775809)) /\
  -7423372036854775809 <> clk 0%nat + Int64.max_int /\
  fst (Get clk "k" w1) = (None, Some ErrKeyExpired).
Proof. vm_compute. repeat split; discriminate. Qed.

(** C4 with a duration of 50ns set at 1000ns, and with duration 0, on a
    store whose default expiration is 700ns. *)
Lemma C4_SetWithExpiration_stores_witness :
  let clk : nat -> Time := fun n => 1000 + 100 * Z.of_nat n in
  let w : @World string unit :=
    mkWorld (mkCache {[ "a" := mkItem (Some "old") 950 ]} 700 0) 0 tt in
  (SetWithExpiration clk "a" (Some "v") 50 w =
     (None, with_items (<["a" := mkItem (Some "v") 1050]> (items (cache w))) 1 w)) /\
  (SetWithExpiration clk "a" (Some "v") 0 w =
     (None, with_items (<["a" := mkItem (Some "v") 0]> (items (cache w))) 0 w)).
Proof.
  intros clk w. split.
  - refine (proj1 (C4_SetWithExpiration_stores clk "a" "v" 50 w _ _)).
    + lia.
    + intros _. vm_compute. split; discriminate.
  - refine (proj1 (C4_SetWithExpiration_stores clk "a" "v" 0 w _ _)).
    + lia.
    + intros H. lia.
Defined.

(** C9 with a duration of -5ns. *)
Lemma C9_negative_duration_never_expires_witness :
  let clk : nat -> Time := fun n => 1000 + 100 * Z.of_nat n in
  let w : @World string unit := mkWorld (New (mkOptions 700 0)) 0 tt in
  -5 < 0 /\
  SetWithExpiration clk "a" (Some "v") (-5) w =
    (None, with_items {[ "a" := mkItem (Some "v") 0 ]} 0 w).
Proof.
  intros clk w. split; [lia|].
  apply (C9_negative_duration_never_expires clk "a" "v" (-5) w). lia.
Defined.

(** C7 on the store left by [SetWithExpiration("k", "v", math.MaxInt64)] at a
    clock reading of 1.8e18 ns: [DeleteExpired] keeps the entry although it
    is expired. *)
Lemma C7_DeleteExpired_keeps_negative_witness :
  let clk : nat -> Time := fun _ => 1800000000000000000 in
  let w0 : @World string unit := mkWorld (New (mkOptions 0 0)) 0 tt in
  let w := snd (SetWithExpiration clk "k" (Some "v") Int64.max_int w0) in
  let item := mkItem (Some "v") (-7423372036854775809) in
  items (cache w) !! "k" = Some item /\
  fst (Expired clk item w) = true /\
  items (cache (snd (DeleteExpired clk w))) !! "k" = Some item.
Proof.
  intros clk w0 w item.
  assert (items (cache w) !! "k" = Some item) as Hk by reflexivity.
  split; [exact Hk|].
  apply (C7_DeleteExpired_keeps_negative clk "k" item w Hk).
  - vm_compute. reflexivity.
  - vm_compute. reflexivity.
Defined.

(** C3 on the store left by [SetWithExpiration("a", "v", 100)] at 1000ns, at
    the next reading of the clock, 1100ns: [Get] serves the entry, [Items]
    does not list it. *)
Lemma C3_Items_omits_unexpired_at_boundary_witness :
  let clk : nat -> Time := fun n => 1000 + 100 * Z.of_nat n in
  let w0 : @World string unit := mkWorld (New (mkOptions 0 0)) 0 tt in
  let w := snd (SetWithExpiration clk "a" (Some "v") 100 w0) in
  let item := mkItem (Some "v") 1100 in
  items (cache w) !! "a" = Some item /\
  fst (Expired clk item w) = false /\
  fst (Get clk "a" w) = (Some "v", None) /\
  fst (Items clk w) !! "a" = None.
Proof.
  intros clk w0 w item.
  assert (items (cache w) !! "a" = Some item) as Hk by reflexivity.
  split; [exact Hk|].
  apply (C3_Items_omits_unexpired_at_boundary clk "a" item w Hk).
  - discriminate.
  - reflexivity.
Defined.

(** C5 as it was stated fails when the compute function succeeds with the nil
    value: on an empty store [Get] fails, the function returns no error, and
    [GetOrSet] returns the error of [Set] instead of the computed value. *)
Lemma C5_counterexample_nil_value :
  let clk : nat -> Time := fun n => 1000 + 100 * Z.of_nat n in
  let fn : @M string unit (@iface string * option error) := ret (None, None) in
  let w : @World string unit := mkWorld (New (mkOptions 0 0)) 0 tt in
  Get clk "k" w = ((None, Some ErrKeyNotFound), w) /\
  fn w = ((None, None), w) /\
  GetOrSet clk "k" fn w = ((None, Some ErrNilValue), w) /\
  GetOrSet clk "k" fn w <> ((None, None), w).
Proof. cbv zeta. repeat split; try reflexivity. discriminate. Qed.

(** C5 on a store with a default expiration of one minute and a compute
    function that counts its calls in a captured variable, as in the test of
    the package: the first call computes and stores, the second returns the
    stored value and the counter stays at 1. *)
Lemma C5_GetOrSet_outcomes_witness :
  let clk : nat -> Time := fun n => 1000 + 100 * Z.of_nat n in
  let fn : @M string nat (@iface string * option error) :=
    fun w => ((Some "computed-value", None),
              mkWorld (cache w) (ticks w) (S (env w))) in
  let w : @World string nat := mkWorld (New (mkOptions 60000000000 0)) 0 0%nat in
  let r1 := GetOrSet clk "compute-key" fn w in
  let r2 := GetOrSet clk "compute-key" fn (snd r1) in
  fst r1 = (Some "computed-value", None) /\
  items (cache (snd r1)) !! "compute-key" =
    Some (mkItem (Some "computed-value") 60000001000) /\
  env (snd r1) = 1%nat /\
  fst r2 = (Some "computed-value", None) /\
  env (snd r2) = 1%nat.
Proof.
  intros clk fn w r1 r2.
  destruct (C5_GetOrSet_outcomes clk "compute-key" fn w) as (_ & _ & Hstore).
  specialize (Hstore None ErrKeyNotFound w "computed-value"
                (mkWorld (cache w) 0 1%nat) eq_refl eq_refl).
  cbv zeta in Hstore.
  destruct (C5_GetOrSet_outcomes clk "compute-key" fn (snd r1))
    as (Hcached & _ & _).
  specialize (Hcached (Some "computed-value")
                (mkWorld (cache (snd r1)) 2 1%nat) eq_refl).
  subst r1 r2. rewrite Hcached, Hstore. repeat split; reflexivity.
Defined.

(** C10 on an empty store. *)
Lemma C10_GetOrSet_nil_value_witness :
  let clk : nat -> Time := fun n => 1000 + 100 * Z.of_nat n in
  let fn : @M string unit (@iface string * option error) := ret (None, None) in
  let w : @World string unit := mkWorld (New (mkOptions 0 0)) 0 tt in
  GetOrSet clk "k" fn w = ((None, Some ErrNilValue), w) /\
  items (cache (snd (GetOrSet clk "k" fn w))) !! "k" = None.
Proof.
  intros clk fn w.
  destruct (C10_GetOrSet_nil_value clk "k" fn w w) as [Herr Hnone].
  - left. reflexivity.
  - reflexivity.
  - split; [exact Herr|]. apply Hnone; [reflexivity|]. vm_compute. discriminate.
Defined.

(** C2 on [New(Options{CleanupInterval: 1})]: after [Stop] has returned once,
    no run of a second [Stop] reaches its return, and at the send no move is
    left. *)
Lemma C2_second_Stop_never_returns_witness :
  let clk : nat -> Time := fun n => 1000 + 100 * Z.of_nat n in
  let options := mkOptions 0 1 in
  let s1 : @Sys string unit :=
    mkSys (mkWorld (New options) 0 tt) SweepReturned StopReturned in
  0 < CleanupInterval options /\
  rtc (step clk) (call_Stop (Sys_New options tt)) s1 /\
  (forall s2, rtc (step clk) (call_Stop s1) s2 -> caller s2 <> StopReturned) /\
  successors clk (mkSys (world s1) (sweeper s1) StopSend) = [].
Proof.
  intros clk options s1.
  assert (0 < CleanupInterval options) as Hpos by (cbn; lia).
  assert (rtc (step clk) (call_Stop (Sys_New options tt)) s1) as Hrun.
  { apply rtc_l with (mkSys (mkWorld (New options) 0 tt) SweepSelect StopSend).
    - apply step_cases. right; right; left. split; reflexivity.
    - apply rtc_once, step_cases. right; right; right. repeat split. }
  destruct (@C2_second_Stop_never_returns string unit clk options tt Hpos)
    as [_ Hblock].
  destruct (Hblock s1 Hrun eq_refl) as [Hnever _].
  repeat split; [exact Hrun | exact Hnever].
Defined.

(** * The further properties at concrete runs *)

(** X6: set at 1000ns for 200ns, read at 1100ns. *)
Lemma X6_SetWithExpiration_then_Get_witness :
  let clk : nat -> Time := fun n => 1000 + 100 * Z.of_nat n in
  let w : @World string unit := mkWorld (New (mkOptions 0 0)) 0 tt in
  let w' := snd (SetWithExpiration clk "a" (Some "v") 200 w) in
  fst (Get clk "a" w') = (Some "v", None) /\
  cache (snd (Get clk "a" w')) = cache w'.
Proof.
  intros clk w w'.
  apply (X6_SetWithExpiration_then_Get clk "a" "v" 200 w).
  right. vm_compute. discriminate.
Defined.

(** X7: set at 1000ns for 50ns, read at 1100ns. *)
Lemma X7_SetWithExpiration_then_expired_witness :
  let clk : nat -> Time := fun n => 1000 + 100 * Z.of_nat n in
  let w : @World string unit := mkWorld (New (mkOptions 0 0)) 0 tt in
  let w2 := snd (SetWithExpiration clk "a" (Some "v") 50 w) in
  fst (Get clk "a" w2) = (None, Some ErrKeyExpired) /\
  items (cache (snd (Get clk "a" w2))) = delete "a" (items (cache w)) /\
  fst (ItemCount (snd (Get clk "a" w2))) = fst (ItemCount w).
Proof.
  intros clk w w2.
  destruct (X7_SetWithExpiration_then_expired clk "a" "v" 50 w w2)
    as (Herr & Hitems & Hcount).
  - lia.
  - reflexivity.
  - vm_compute. discriminate.
  - vm_compute. reflexivity.
  - vm_compute. discriminate.
  - split; [exact Herr|]. split; [exact Hitems|]. apply Hcount. reflexivity.
Defined.

(** X10: a sweep at 1000ns over an expired, a never-expiring and a live
    entry. *)
Lemma X10_DeleteExpired_exact_witness :
  let clk : nat -> Time := fun n => 1000 + 100 * Z.of_nat n in
  let w : @World string unit :=
    mkWorld (mkCache {[ "a" := mkItem (Some "v") 950; "b" := mkItem (Some "x") 0;
                        "c" := mkItem (Some "y") 5000 ]} 0 0) 0 tt in
  let m' := items (cache (snd (DeleteExpired clk w))) in
  nonneg_expirations w /\
  m' !! "a" = None /\
  m' !! "b" = Some (mkItem (Some "x") 0) /\
  m' !! "c" = Some (mkItem (Some "y") 5000).
Proof.
  intros clk w m'.
  assert (nonneg_expirations w) as Hnonneg.
  { intros k item Hk. unfold w in Hk. cbn [cache items] in Hk.
    repeat (apply lookup_insert_Some in Hk as [[_ <-]|[_ Hk]]; [cbn; lia|]).
    apply lookup_singleton_Some in Hk as [_ <-]. cbn. lia. }
  split; [exact Hnonneg|].
  split; [exact (X10_DeleteExpired_exact clk w Hnonneg "a")|].
  split; [exact (X10_DeleteExpired_exact clk w Hnonneg "b")|].
  exact (X10_DeleteExpired_exact clk w Hnonneg "c").
Defined.

(** X11: on the store of [New], a [SetWithExpiration] for 50ns at 1000ns. *)
Lemma X11_nonneg_expirations_kept_witness :
  let clk : nat -> Time := fun n => 1000 + 100 * Z.of_nat n in
  let w : @World string unit := mkWorld (New (mkOptions 0 0)) 0 tt in
  nonneg_expirations w /\
  nonneg_expirations (snd (SetWithExpiration clk "a" (Some "v") 50 w)) /\
  nonneg_expirations (snd (DeleteExpired clk w)).
Proof.
  intros clk w.
  assert (nonneg_expirations w) as Hnonneg.
  { intros k item Hk. cbn in Hk. by rewrite lookup_empty in Hk. }
  destruct (X11_nonneg_expirations_kept clk w Hnonneg) as (HSet & _ & _ & Hsweep & _).
  split; [exact Hnonneg|]. split; [|exact Hsweep].
  apply HSet. right. vm_compute. split; discriminate.
Defined.

(** X12: a never-expiring entry is listed by [Items] and served by [Get]. *)
Lemma X12_Items_agrees_with_Get_witness :
  let clk : nat -> Time := fun n => 1000 + 100 * Z.of_nat n in
  let w : @World string unit :=
    mkWorld (mkCache {[ "a" := mkItem (Some "v") 0 ]} 0 0) 0 tt in
  fst (Items clk w) !! "a" = Some (Some "v") /\
  fst (Get clk "a" w) = (Some "v", None).
Proof.
  intros clk w.
  assert (fst (Items clk w) !! "a" = Some (Some "v")) as Hin by reflexivity.
  split; [exact Hin|].
  exact (proj1 (X12_Items_agrees_with_Get clk w "a" (Some "v") Hin)).
Defined.

(** X14: on the store of [New], which holds no nil. *)
Lemma X14_no_nil_values_kept_witness :
  let clk : nat -> Time := fun n => 1000 + 100 * Z.of_nat n in
  let w : @World string unit := mkWorld (New (mkOptions 700 0)) 0 tt in
  no_nil_values w /\
  no_nil_values (snd (Set_ clk "a" (Some "v") w)) /\
  no_nil_values (snd (Set_ clk "a" None w)).
Proof.
  intros clk w.
  assert (no_nil_values w) as Hinv.
  { intros k item Hk. cbn in Hk. by rewrite lookup_empty in Hk. }
  destruct (X14_no_nil_values_kept clk w Hinv) as (_ & HSet & _).
  split; [exact Hinv|]. split; apply HSet.
Defined.

(** X15: the first call computes and stores with a default expiration of one
    minute; the second call, given a compute function that fails, returns
    the stored value. *)
Lemma X15_GetOrSet_second_call_cached_witness :
  let clk : nat -> Time := fun n => 1000 + 100 * Z.of_nat n in
  let fn : @M string nat (@iface string * option error) :=
    fun w => ((Some "computed-value", None),
              mkWorld (cache w) (ticks w) (S (env w))) in
  let fn2 : @M string nat (@iface string * option error) :=
    fun w => ((None, Some (ErrOther "unreachable")),
              mkWorld (cache w) (ticks w) (S (env w))) in
  let w : @World string nat := mkWorld (New (mkOptions 60000000000 0)) 0 0%nat in
  let w' := snd (GetOrSet clk "compute-key" fn w) in
  fst (GetOrSet clk "compute-key" fn2 w') = (Some "computed-value", None) /\
  env (snd (GetOrSet clk "compute-key" fn2 w')) = 1%nat.
Proof.
  intros clk fn fn2 w w'.
  destruct (X15_GetOrSet_second_call_cached clk "compute-key" fn fn2 w w
              (mkWorld (cache w) 0 1%nat) w' None ErrKeyNotFound "computed-value")
    as (Hval & _ & Henv).
  - reflexivity.
  - reflexivity.
  - reflexivity.
  - right. vm_compute. discriminate.
  - split; [exact Hval|]. rewrite Henv. reflexivity.
Defined.

(** X16: [Stop] on [New(Options{})], run to its return. *)
Lemma X16_Stop_without_interval_witness :
  let clk : nat -> Time := fun n => 1000 + 100 * Z.of_nat n in
  let s : @Sys string unit := Sys_New (mkOptions 0 0) tt in
  let s' := mkSys (world s) SweepAbsent StopReturned in
  rtc (step clk) (call_Stop s) s' /\
  step clk (call_Stop s) s' /\
  (s' = call_Stop s \/ s' = mkSys (world s) SweepAbsent StopReturned).
Proof.
  intros clk s s'.
  assert (rtc (step clk) (call_Stop s) s') as Hrun.
  { apply rtc_once, step_cases. right; right; left. split; reflexivity. }
  split; [exact Hrun|].
  apply (X16_Stop_without_interval clk s s'); [cbn; lia | reflexivity | exact Hrun].
Defined.

(** X17: [Stop] on [New(Options{CleanupInterval: 1})], with the caller at
    its send while the goroutine is inside [DeleteExpired]. *)
Lemma X17_first_Stop_can_return_witness :
  let clk : nat -> Time := fun n => 1000 + 100 * Z.of_nat n in
  let options := mkOptions 0 1 in
  let s : @Sys string unit :=
    mkSys (mkWorld (New options) 0 tt) SweepDeleting StopSend in
  rtc (step clk) (call_Stop (Sys_New options tt)) s /\
  exists s', rtc (step clk) s s' /\ caller s' = StopReturned.
Proof.
  intros clk options s.
  assert (rtc (step clk) (call_Stop (Sys_New options tt)) s) as Hrun.
  { apply rtc_l with (mkSys (mkWorld (New options) 0 tt) SweepDeleting StopEntry).
    - apply step_cases. left. split; reflexivity.
    - apply rtc_once, step_cases. right; right; left. split; reflexivity. }
  split; [exact Hrun|].
  apply (X17_first_Stop_can_return clk options tt s); [cbn; lia | exact Hrun].
Defined.

(** X18: the state in which the first [Stop] has returned. *)
Lemma X18_no_sweep_after_Stop_witness :
  let clk : nat -> Time := fun n => 1000 + 100 * Z.of_nat n in
  let options := mkOptions 0 1 in
  let s1 : @Sys string unit :=
    mkSys (mkWorld (New options) 0 tt) SweepReturned StopReturned in
  rtc (step clk) (call_Stop (Sys_New options tt)) s1 /\
  successors clk s1 = [].
Proof.
  intros clk options s1.
  assert (rtc (step clk) (call_Stop (Sys_New options tt)) s1) as Hrun.
  { apply rtc_l with (mkSys (mkWorld (New options) 0 tt) SweepSelect StopSend).
    - apply step_cases. right; right; left. split; reflexivity.
    - apply rtc_once, step_cases. right; right; right. repeat split. }
  split; [exact Hrun|].
  destruct (@X18_no_sweep_after_Stop string unit clk options tt s1 s1)
    as (_ & Hnone & _); [cbn; lia | exact Hrun | reflexivity | apply rtc_refl |].
  exact Hnone.
Defined.

(** X19: one tick of the goroutine over an expired and a never-expiring
    entry. *)
Lemma X19_sweeps_keep_never_expiring_witness :
  let clk : nat -> Time := fun n => 1000 + 100 * Z.of_nat n in
  let w : @World string unit :=
    mkWorld (mkCache {[ "a" := mkItem (Some "v") 950; "b" := mkItem (Some "x") 0 ]} 0 1)
            0 tt in
  let s := mkSys w SweepSelect CallerIdle in
  let s' := mkSys (snd (DeleteExpired clk w)) SweepSelect CallerIdle in
  rtc (step clk) s s' /\
  items (cache (world s')) !! "b" = Some (mkItem (Some "x") 0) /\
  items (cache (world s')) !! "a" = None.
Proof.
  intros clk w s s'.
  assert (rtc (step clk) s s') as Hrun.
  { apply rtc_l with (mkSys w SweepDeleting CallerIdle).
    - apply step_cases. left. split; reflexivity.
    - apply rtc_once, step_cases. right; left. split; reflexivity. }
  split; [exact Hrun|].
  destruct (X19_sweeps_keep_never_expiring clk s s' Hrun) as (_ & Hkeep & _).
  split; [|reflexivity].
  apply Hkeep; reflexivity.
Defined.
